(** * github-views-counter: the [/view/:repo] handler of [src/index.ts]

    A shallow embedding of the request handler (lines 57-113) together with
    the parts of its collaborators that it observes:

    - the MongoDB collection behind the [ViewCount] model, as the list of its
      documents in natural order; a document's identity is its position,
      documents are only ever inserted at the end or updated in place;
    - the Express response object, which accepts one [send] and throws on a
      second one (headers already sent);
    - the clock, as the two readings the handler takes ([Date.now()] on
      line 73 and [new Date()] on line 92);
    - rejected store operations, as an oracle saying which of the three
      awaited calls (lines 64, 69, 99) rejects.

    Dates are their millisecond time values, [views] is an integer: both are
    exact on the range where the JavaScript number type is, up to 2^53 in
    magnitude. Statements about the digits of a count carry that bound. *)

From Stdlib Require Import ZArith List String Ascii Bool Lia.
From Stdlib Require Import DecimalString DecimalPos DecimalZ.
From stdpp Require Import base list strings.
Import ListNotations.

Local Open Scope Z_scope.
Local Open Scope string_scope.

(** ** Data model (lines 12-33) *)

Record IPLog := mkIPLog { ip : string; timestamp : Z }.

Record ViewCountDocument := mkViewCount {
  repo : string;
  views : Z;
  ipLogs : list IPLog
}.

Definition set_views (v : Z) (d : ViewCountDocument) : ViewCountDocument :=
  {| repo := repo d; views := v; ipLogs := ipLogs d |}.

Definition set_ipLogs (l : list IPLog) (d : ViewCountDocument) : ViewCountDocument :=
  {| repo := repo d; views := views d; ipLogs := l |}.

(** ** The badge payload (lines 80-85 and 101-106) *)

Record Badge := mkBadge {
  schemaVersion : Z;
  label : string;
  message : string;
  color : string
}.

(** The decimal numeral of an integer, with a leading minus sign for a
    negative one. *)
Definition decimal (n : Z) : string := NilZero.string_of_int (Z.to_int n).

(** A string of digits without its trailing zeros. *)
Fixpoint strip_zeros (s : string) : string :=
  match s with
  | EmptyString => EmptyString
  | String c s' =>
      match strip_zeros s' with
      | EmptyString =>
          if Ascii.eqb c "0" then EmptyString else String c EmptyString
      | r => String c r
      end
  end.

(** The first digit, and the others after a point if there are any. *)
Definition mantissa (s : string) : string :=
  match s with
  | EmptyString => EmptyString
  | String c EmptyString => String c EmptyString
  | String c r => String c ("." ++ r)
  end.

(** The exponent notation of a positive integer: its significant digits
    and the number of digits that follow the first. *)
Definition exponential (n : Z) : string :=
  let digits := decimal n in
  mantissa (strip_zeros digits)
  ++ "e+" ++ decimal (Z.of_nat (String.length digits) - 1).

(** [String(n)] on an integer-valued number: the decimal numeral below
    10^21 in magnitude, exponent notation from there on. The digits are
    those of the number itself up to 2^53 in magnitude, and beyond for the
    numbers whose shortest digits are those of their decimal expansion,
    10^21 among them; the digits [String] prints for the other numbers
    come from floating point rounding, which is not modelled. *)
Definition String_ (n : Z) : string :=
  if (Z.abs n <? 10 ^ 21)%Z then decimal n
  else if (n <? 0)%Z then "-" ++ exponential (- n)
  else exponential n.

(** The number a decimal numeral denotes, if the string is one. *)
Definition decimal_value (s : string) : option Z :=
  option_map Z.of_int (NilZero.int_of_string s).

Definition is_digit (c : ascii) : bool :=
  let n := nat_of_ascii c in (48 <=? n)%nat && (n <=? 57)%nat.

Fixpoint all_digits (s : string) : bool :=
  match s with
  | EmptyString => true
  | String c s' => is_digit c && all_digits s'
  end.

(** No character of the string is the letter e. *)
Fixpoint no_e (s : string) : bool :=
  match s with
  | EmptyString => true
  | String c s' => negb (Ascii.eqb c "e") && no_e s'
  end.

(** A string of zeros. *)
Fixpoint zeros (k : nat) : string :=
  match k with
  | O => EmptyString
  | S k' => String "0" (zeros k')
  end.

Definition response (count : Z) : Badge :=
  {| schemaVersion := 1;
     label := "Profile View";
     message := String_ count;
     color := "blue" |}.

Definition quote : string := String (ascii_of_nat 34) EmptyString.

Definition json_string (s : string) : string := quote ++ s ++ quote.

(** [JSON.stringify] on a badge; none of the strings a badge of [response]
    holds needs escaping. *)
Definition JSON_stringify (b : Badge) : string :=
  "{" ++ json_string "schemaVersion" ++ ":" ++ String_ (schemaVersion b) ++ ","
      ++ json_string "label" ++ ":" ++ json_string (label b) ++ ","
      ++ json_string "message" ++ ":" ++ json_string (message b) ++ ","
      ++ json_string "color" ++ ":" ++ json_string (color b) ++ "}".

(** ** The world the handler runs in *)

Record Reply := mkReply { status : Z; body : string }.

Record World := mkWorld {
  db : list ViewCountDocument;
  sent : option Reply
}.

Inductive Error := StoreError | HeadersSent.

Inductive Outcome (A : Type) :=
| Ok (a : A)
| Throw (e : Error).
Arguments Ok {A} a.
Arguments Throw {A} e.

(** Which of the awaited store calls rejects: the store failing, or, for the
    save of line 99, the validators of the schema (lines 27-31) refusing the
    document. An entry without [ip] is refused, so a request whose client
    identifier is empty is served with [update_rejects] set (see
    [validated]); what is stated of a request that nothing rejects is
    stated of a client identifier that is not empty. *)
Record Faults := mkFaults {
  findOne_rejects : bool;
  insert_rejects : bool;
  update_rejects : bool
}.

Definition no_faults : Faults :=
  {| findOne_rejects := false; insert_rejects := false; update_rejects := false |}.

(** The rejections of a request of client [userIp], given those of the
    store: [ip] is a required string (line 29), which the empty string is
    not, so the save of the document with the entry pushed on line 92
    rejects when the identifier is empty. *)
Definition validated (f : Faults) (userIp : string) : Faults :=
  {| findOne_rejects := findOne_rejects f;
     insert_rejects := insert_rejects f;
     update_rejects := update_rejects f || String.eqb userIp EmptyString |}.

Module Async.

Definition M (A : Type) : Type := World -> Outcome A * World.

Definition ret {A} (a : A) : M A := fun w => (Ok a, w).

Definition bind {A B} (m : M A) (k : A -> M B) : M B :=
  fun w => match m w with
           | (Ok a, w') => k a w'
           | (Throw e, w') => (Throw e, w')
           end.

Definition throw {A} (e : Error) : M A := fun w => (Throw e, w).

Definition try_catch {A} (m : M A) (h : Error -> M A) : M A :=
  fun w => match m w with
           | (Ok a, w') => (Ok a, w')
           | (Throw e, w') => h e w'
           end.

End Async.
Import Async.

Notation "x <- m ;; k" := (bind m (fun x => k))
  (at level 100, m at next level, right associativity).
Notation "m ;;; k" := (bind m (fun _ => k))
  (at level 100, right associativity).

(** ** Store operations *)

(** [ViewCount.findOne({ repo })]: the first document of the collection
    whose [repo] is the one asked for, with its position. *)
Definition findOne (f : Faults) (r : string) : M (option (nat * ViewCountDocument)) :=
  fun w => if findOne_rejects f then throw StoreError w
           else (Ok (list_find (fun d => repo d = r) (db w)), w).

(** [save()] on a document made by [new ViewCount(...)]: inserted at the
    end of the collection. *)
Definition save_new (f : Faults) (d : ViewCountDocument) : M nat :=
  fun w => if insert_rejects f then throw StoreError w
           else (Ok (length (db w)), {| db := db w ++ [d]; sent := sent w |}).

(** [save()] on a document that is in the collection: updated in place. *)
Definition save (f : Faults) (i : nat) (d : ViewCountDocument) : M unit :=
  fun w => if update_rejects f then throw StoreError w
           else (Ok tt, {| db := <[i := d]> (db w); sent := sent w |}).

(** [res.status(code).send(text)]: the first one is the response, a later
    one throws. *)
Definition send (code : Z) (text : string) : M unit :=
  fun w => match sent w with
           | None => (Ok tt, {| db := db w; sent := Some (mkReply code text) |})
           | Some _ => throw HeadersSent w
           end.

(** ** The handler (lines 57-113) *)

(** The window of line 73, in milliseconds. *)
Definition oneHour : Z := 60 * 60 * 1000.

(** The predicate of line 75. *)
Definition is_recent (userIp : string) (oneHourAgo : Z) (log : IPLog) : bool :=
  String.eqb (ip log) userIp && (timestamp log >? oneHourAgo).

(** The predicate of line 96. *)
Definition in_window (oneHourAgo : Z) (log : IPLog) : bool :=
  timestamp log >? oneHourAgo.

(** Lines 64-70. *)
Definition find_or_create (f : Faults) (r : string) : M (nat * ViewCountDocument) :=
  found <- findOne f r ;;
  match found with
  | Some h => ret h
  | None =>
      let countDoc := mkViewCount r 0 [] in
      i <- save_new f countDoc ;;
      ret (i, countDoc)
  end.

(** Lines 73-76; [now] is the reading of [Date.now()]. *)
Definition recentEntry (countDoc : ViewCountDocument) (userIp : string) (now : Z)
  : option IPLog :=
  List.find (is_recent userIp (now - oneHour)) (ipLogs countDoc).

(** What lines 91-97 leave in memory; [stamp] is the reading of
    [new Date()] on line 92. *)
Definition updated (countDoc : ViewCountDocument) (userIp : string) (now stamp : Z)
  : ViewCountDocument :=
  let oneHourAgo := now - oneHour in
  let countDoc := set_views (views countDoc + 1) countDoc in
  let countDoc := set_ipLogs (ipLogs countDoc ++ [mkIPLog userIp stamp]) countDoc in
  set_ipLogs (List.filter (in_window oneHourAgo) (ipLogs countDoc)) countDoc.

(** The [try] block, with the [if] of lines 78-88 that sends and does not
    return, and the [catch] block of lines 109-112. *)
Definition handler (f : Faults) (r userIp : string) (now stamp : Z) : M unit :=
  try_catch
    (h <- find_or_create f r ;;
     let '(i, countDoc) := h in
     (match recentEntry countDoc userIp now with
      | Some _ => send 200 (JSON_stringify (response (views countDoc)))
      | None => ret tt
      end) ;;;
     let countDoc := updated countDoc userIp now stamp in
     save f i countDoc ;;;
     send 200 (JSON_stringify (response (views countDoc))))
    (fun error => send 500 "Server Error").

(** One request against a collection: how the handler's promise settles,
    the collection afterwards and the response the client got. *)
Definition serve (f : Faults) (store : list ViewCountDocument)
    (r userIp : string) (now stamp : Z) : Outcome unit * World :=
  handler f r userIp now stamp {| db := store; sent := None |}.

Definition persisted (f : Faults) (store : list ViewCountDocument)
    (r userIp : string) (now stamp : Z) : list ViewCountDocument :=
  db (snd (serve f store r userIp now stamp)).

Definition reply (f : Faults) (store : list ViewCountDocument)
    (r userIp : string) (now stamp : Z) : option Reply :=
  sent (snd (serve f store r userIp now stamp)).

(** The record stored for a resource key. *)
Definition record_of (store : list ViewCountDocument) (r : string)
  : option ViewCountDocument :=
  snd <$> list_find (fun d => repo d = r) store.

(** An instant and a duration for the examples. *)
Definition T0 : Z := 1700000000000.
Definition minutes (n : Z) : Z := n * 60 * 1000.

(** The document the handler holds after lines 64-70, with its position,
    and the collection at that point, when no store call rejects. *)
Definition in_memory (store : list ViewCountDocument) (r : string)
  : nat * ViewCountDocument :=
  default (length store, mkViewCount r 0 []) (list_find (fun d => repo d = r) store).

Definition established (store : list ViewCountDocument) (r : string)
  : list ViewCountDocument :=
  match list_find (fun d => repo d = r) store with
  | Some _ => store
  | None => store ++ [mkViewCount r 0 []]
  end.

Definition current (store : list ViewCountDocument) (r : string)
  : ViewCountDocument :=
  snd (in_memory store r).

Definition count_of (store : list ViewCountDocument) (r : string) : Z :=
  from_option views 0 (record_of store r).

(** A sequence of requests served one after the other, none rejected. *)
Record Request := mkRequest {
  req_repo : string;
  req_ip : string;
  req_now : Z;
  req_stamp : Z
}.

Definition step (store : list ViewCountDocument) (q : Request)
  : list ViewCountDocument :=
  persisted no_faults store (req_repo q) (req_ip q) (req_now q) (req_stamp q).

Fixpoint run (reqs : list Request) (store : list ViewCountDocument)
  : list ViewCountDocument :=
  match reqs with
  | [] => store
  | q :: reqs' => run reqs' (step store q)
  end.

(** The request comes with a client identifier. *)
Definition identified (q : Request) : bool :=
  negb (String.eqb (req_ip q) EmptyString).

Definition on_key (key : string) (q : Request) : bool :=
  String.eqb (req_repo q) key.

(** Every request of the sequence for [key] finds no recent entry of its
    client when it is served. *)
Fixpoint all_new_visits (key : string) (reqs : list Request)
    (store : list ViewCountDocument) : bool :=
  match reqs with
  | [] => true
  | q :: reqs' =>
      (if on_key key q
       then match recentEntry (current store key) (req_ip q) (req_now q) with
            | None => true
            | Some _ => false
            end
       else true)
      && all_new_visits key reqs' (step store q)
  end.

(** ** The client identifier (lines 59-60) *)

(** [req.headers["x-forwarded-for"] || req.socket.remoteAddress]: the
    header when the request has it and it is not the empty string, the
    address of the socket otherwise. The header is absent or a string; the
    socket is taken to be connected, so that its address is a string, as
    the cast of line 60 says. *)
Definition userIp_of (forwarded : option string) (remoteAddress : string) : string :=
  match forwarded with
  | Some h => if String.eqb h EmptyString then remoteAddress else h
  | None => remoteAddress
  end.

(** The keys of the documents of a collection, in order. *)
Definition keys (store : list ViewCountDocument) : list string :=
  List.map repo store.

(** ** Basic facts about the store operations *)

Arguments recentEntry : simpl never.
Arguments updated : simpl never.
Arguments response : simpl never.
Arguments JSON_stringify : simpl never.
Arguments String_ : simpl never.

Lemma list_find_repo (store : list ViewCountDocument) r i d :
  list_find (fun d => repo d = r) store = Some (i, d) ->
  store !! i = Some d /\ repo d = r.
Proof. intros H. apply list_find_Some in H. tauto. Qed.

Lemma list_find_update (store : list ViewCountDocument) r i d d' :
  store !! i = Some d -> repo d' = repo d ->
  list_find (fun x => repo x = r) (<[i := d']> store) =
  match list_find (fun x => repo x = r) store with
  | Some (j, x) => if decide (j = i) then Some (i, d') else Some (j, x)
  | None => None
  end.
Proof.
  revert i. induction store as [|a l IH]; intros i Hi Hr; [done|].
  destruct i as [|i]; simpl in *.
  - injection Hi as ->. rewrite Hr.
    destruct (decide (repo d = r)); simpl; [done|].
    destruct (list_find _ l) as [[j x]|]; simpl; [|done].
    by destruct (decide (S j = 0%nat)).
  - destruct (decide (repo a = r)); simpl; [done|].
    rewrite (IH i Hi Hr).
    destruct (list_find _ l) as [[j x]|]; simpl; [|done].
    destruct (decide (j = i)); destruct (decide (S j = S i)); simpl; congruence.
Qed.

Lemma list_find_snoc (store : list ViewCountDocument) r d :
  list_find (fun x => repo x = r) (store ++ [d]) =
  match list_find (fun x => repo x = r) store with
  | Some h => Some h
  | None => if decide (repo d = r) then Some (length store, d) else None
  end.
Proof.
  induction store as [|a l IH]; simpl.
  - by destruct (decide (repo d = r)).
  - destruct (decide (repo a = r)); simpl; [done|].
    rewrite IH. destruct (list_find _ l) as [[j x]|]; simpl; [done|].
    by destruct (decide (repo d = r)).
Qed.

Lemma in_memory_lookup store r :
  established store r !! fst (in_memory store r) = Some (snd (in_memory store r))
  /\ repo (snd (in_memory store r)) = r
  /\ list_find (fun d => repo d = r) (established store r) = Some (in_memory store r).
Proof.
  unfold established, in_memory.
  destruct (list_find _ store) as [[i d]|] eqn:E; simpl.
  - destruct (list_find_repo _ _ _ _ E). auto.
  - split; [|split; [done|]].
    + rewrite lookup_app_r by lia. by rewrite Nat.sub_diag.
    + rewrite list_find_snoc, E. simpl. by destruct (decide (r = r)).
Qed.

(** The collection after one request, whatever rejects. *)
Lemma persisted_cases f store r userIp now stamp :
  persisted f store r userIp now stamp =
  if findOne_rejects f then store else
  match list_find (fun d => repo d = r) store with
  | Some (i, d) =>
      if update_rejects f then store
      else <[i := updated d userIp now stamp]> store
  | None =>
      if insert_rejects f then store else
      if update_rejects f then (store ++ [mkViewCount r 0 []])%list
      else <[length store := updated (mkViewCount r 0 []) userIp now stamp]>
             (store ++ [mkViewCount r 0 []])%list
  end.
Proof.
  unfold persisted, serve, handler, try_catch, bind, find_or_create, bind,
    findOne, save_new, save, send, ret, throw.
  destruct f as [[] [] []]; simpl;
    destruct (list_find (fun d => repo d = r) store) as [[i d]|]; simpl;
    try (match goal with
         | |- context [recentEntry ?d userIp now] =>
             destruct (recentEntry d userIp now)
         end); reflexivity.
Qed.

(** One request when no store call rejects. *)
Lemma serve_no_faults store r userIp now stamp :
  serve no_faults store r userIp now stamp =
  let '(i, d) := in_memory store r in
  let d' := updated d userIp now stamp in
  match recentEntry d userIp now with
  | Some _ =>
      (Throw HeadersSent,
       {| db := <[i := d']> (established store r);
          sent := Some (mkReply 200 (JSON_stringify (response (views d)))) |})
  | None =>
      (Ok tt,
       {| db := <[i := d']> (established store r);
          sent := Some (mkReply 200 (JSON_stringify (response (views d')))) |})
  end.
Proof.
  unfold serve, handler, try_catch, bind, find_or_create, bind,
    findOne, save_new, save, send, ret, throw, in_memory, established.
  simpl. destruct (list_find (fun d => repo d = r) store) as [[i d]|]; simpl.
  - destruct (recentEntry d userIp now); reflexivity.
  - destruct (recentEntry (mkViewCount r 0 []) userIp now); reflexivity.
Qed.

Lemma persisted_no_faults store r userIp now stamp :
  persisted no_faults store r userIp now stamp =
  <[fst (in_memory store r) := updated (snd (in_memory store r)) userIp now stamp]>
    (established store r).
Proof.
  unfold persisted. rewrite serve_no_faults.
  destruct (in_memory store r) as [i d]; simpl.
  destruct (recentEntry d userIp now); reflexivity.
Qed.

Lemma reply_no_faults store r userIp now stamp :
  reply no_faults store r userIp now stamp =
  let d := snd (in_memory store r) in
  Some (mkReply 200 (JSON_stringify (response
    (match recentEntry d userIp now with
     | Some _ => views d
     | None => views d + 1
     end)))).
Proof.
  unfold reply. rewrite serve_no_faults.
  destruct (in_memory store r) as [i d]; simpl.
  destruct (recentEntry d userIp now); reflexivity.
Qed.

Lemma record_of_persisted store r userIp now stamp :
  record_of (persisted no_faults store r userIp now stamp) r =
  Some (updated (snd (in_memory store r)) userIp now stamp).
Proof.
  rewrite persisted_no_faults.
  destruct (in_memory_lookup store r) as (Hl & Hr & Hf).
  destruct (in_memory store r) as [i d]; simpl in *.
  unfold record_of. rewrite (list_find_update _ r i d) by done.
  rewrite Hf. by destruct (decide (i = i)).
Qed.

(** ** Facts about the update of lines 91-97 *)

Lemma updated_repo d userIp now stamp : repo (updated d userIp now stamp) = repo d.
Proof. reflexivity. Qed.

Lemma updated_views d userIp now stamp :
  views (updated d userIp now stamp) = views d + 1.
Proof. reflexivity. Qed.

Lemma updated_ipLogs d userIp now stamp :
  ipLogs (updated d userIp now stamp) =
  List.filter (in_window (now - oneHour)) (ipLogs d ++ [mkIPLog userIp stamp]).
Proof. reflexivity. Qed.

Lemma in_window_spec w log : in_window w log = true <-> w < timestamp log.
Proof. unfold in_window. rewrite Z.gtb_ltb. apply Z.ltb_lt. Qed.

Lemma updated_ipLogs_fresh d userIp now stamp :
  now - oneHour < stamp ->
  ipLogs (updated d userIp now stamp) =
  (List.filter (in_window (now - oneHour)) (ipLogs d) ++ [mkIPLog userIp stamp])%list.
Proof.
  intros H. rewrite updated_ipLogs, List.filter_app. simpl.
  replace (in_window (now - oneHour) (mkIPLog userIp stamp)) with true; [done|].
  symmetry. by apply in_window_spec.
Qed.

Lemma updated_pruned d userIp now stamp :
  Forall (fun log => now - oneHour < timestamp log)
         (ipLogs (updated d userIp now stamp)).
Proof.
  rewrite updated_ipLogs. apply List.Forall_forall. intros log Hin.
  apply List.filter_In in Hin as [_ Hw]. by apply in_window_spec in Hw.
Qed.

Lemma current_repo store r : repo (current store r) = r.
Proof. unfold current. by destruct (in_memory_lookup store r) as (_ & ? & _). Qed.

Lemma current_record store r :
  current store r = default (mkViewCount r 0 []) (record_of store r).
Proof.
  unfold current, in_memory, record_of.
  by destruct (list_find (fun d => repo d = r) store) as [[i d]|].
Qed.

Lemma count_of_current store r : count_of store r = views (current store r).
Proof.
  rewrite current_record. unfold count_of.
  by destruct (record_of store r).
Qed.

Lemma recentEntry_spec d userIp now :
  recentEntry d userIp now = None <->
  forall log, In log (ipLogs d) -> ip log = userIp -> timestamp log <= now - oneHour.
Proof.
  unfold recentEntry. split.
  - intros H log Hin Hip.
    pose proof (List.find_none _ _ H log Hin) as Hf. unfold is_recent in Hf.
    apply andb_false_iff in Hf as [Hf|Hf].
    + apply String.eqb_neq in Hf. done.
    + rewrite Z.gtb_ltb in Hf. apply Z.ltb_ge in Hf. done.
  - intros H. destruct (List.find _ _) as [log|] eqn:E; [|done].
    apply List.find_some in E as [Hin Hf]. unfold is_recent in Hf.
    apply andb_true_iff in Hf as [Hip Hts].
    apply String.eqb_eq in Hip. rewrite Z.gtb_ltb in Hts. apply Z.ltb_lt in Hts.
    specialize (H log Hin Hip). lia.
Qed.

Lemma recentEntry_found d userIp now e :
  recentEntry d userIp now = Some e ->
  In e (ipLogs d) /\ ip e = userIp /\ now - oneHour < timestamp e.
Proof.
  unfold recentEntry. intros E.
  apply List.find_some in E as [Hin Hf]. unfold is_recent in Hf.
  apply andb_true_iff in Hf as [Hip Hts].
  apply String.eqb_eq in Hip. rewrite Z.gtb_ltb in Hts. apply Z.ltb_lt in Hts.
  done.
Qed.

(** ** The record of the requested key, and of every other key *)

Lemma record_of_persisted_cases f store r userIp now stamp :
  record_of (persisted f store r userIp now stamp) r =
  if findOne_rejects f then record_of store r else
  match record_of store r with
  | Some d =>
      if update_rejects f then Some d else Some (updated d userIp now stamp)
  | None =>
      if insert_rejects f then None else
      if update_rejects f then Some (mkViewCount r 0 [])
      else Some (updated (mkViewCount r 0 []) userIp now stamp)
  end.
Proof.
  rewrite persisted_cases. unfold record_of.
  destruct (findOne_rejects f); [done|].
  destruct (list_find (fun d => repo d = r) store) as [[i d]|] eqn:E; simpl.
  - destruct (update_rejects f); [by rewrite E|].
    destruct (list_find_repo _ _ _ _ E) as [Hl Hr].
    rewrite (list_find_update _ r i d) by done.
    rewrite E. by destruct (decide (i = i)).
  - destruct (insert_rejects f); [by rewrite E|].
    assert (list_find (fun x => repo x = r) (store ++ [mkViewCount r 0 []])
            = Some (length store, mkViewCount r 0 [])) as Hs.
    { rewrite list_find_snoc, E. simpl. by destruct (decide (r = r)). }
    destruct (update_rejects f); [by rewrite Hs|].
    rewrite (list_find_update _ r (length store) (mkViewCount r 0 [])).
    + rewrite Hs. by destruct (decide (length store = length store)).
    + rewrite lookup_app_r by lia. by rewrite Nat.sub_diag.
    + done.
Qed.

Lemma record_of_other f store a b userIp now stamp :
  a <> b ->
  record_of (persisted f store a userIp now stamp) b = record_of store b.
Proof.
  intros Hab. rewrite persisted_cases. unfold record_of.
  destruct (findOne_rejects f); [done|].
  destruct (list_find (fun d => repo d = a) store) as [[i d]|] eqn:E; simpl.
  - destruct (update_rejects f); [done|].
    destruct (list_find_repo _ _ _ _ E) as [Hl Hr].
    rewrite (list_find_update _ b i d) by done.
    destruct (list_find (fun x => repo x = b) store) as [[j x]|] eqn:Eb; [|done].
    destruct (decide (j = i)) as [->|]; [|done].
    destruct (list_find_repo _ _ _ _ Eb) as [Hl' Hr']. congruence.
  - destruct (insert_rejects f); [done|].
    assert (list_find (fun x => repo x = b) (store ++ [mkViewCount a 0 []])
            = list_find (fun x => repo x = b) store) as Hs.
    { rewrite list_find_snoc.
      destruct (list_find (fun x => repo x = b) store); [done|].
      simpl. by destruct (decide (a = b)). }
    destruct (update_rejects f); [by rewrite Hs|].
    rewrite (list_find_update _ b (length store) (mkViewCount a 0 [])).
    + rewrite Hs.
      destruct (list_find (fun x => repo x = b) store) as [[j x]|] eqn:Eb; [|done].
      destruct (decide (j = length store)) as [->|]; [|done].
      destruct (list_find_repo _ _ _ _ Eb) as [Hl' _].
      apply lookup_lt_Some in Hl'. lia.
    + rewrite lookup_app_r by lia. by rewrite Nat.sub_diag.
    + done.
Qed.

(** ** Repeat visits *)

(** On every repeat visit that no store call rejects, the handler answers
    with the count it found and then goes on to lines 91-99: the record is
    written with the count raised and the entry appended, and the second
    [send] throws. *)
Lemma repeat_visit_falls_through store r userIp now stamp e :
  recentEntry (current store r) userIp now = Some e ->
  reply no_faults store r userIp now stamp
    = Some (mkReply 200 (JSON_stringify (response (count_of store r))))
  /\ count_of (persisted no_faults store r userIp now stamp) r = count_of store r + 1
  /\ In (mkIPLog userIp stamp)
        (ipLogs (current store r) ++ [mkIPLog userIp stamp])
  /\ fst (serve no_faults store r userIp now stamp) = Throw HeadersSent.
Proof.
  intros He. split; [|split; [|split]].
  - rewrite reply_no_faults. simpl. fold (current store r).
    by rewrite He, count_of_current.
  - unfold count_of at 1. rewrite record_of_persisted. simpl.
    fold (current store r). by rewrite count_of_current.
  - apply in_or_app. right. by left.
  - rewrite serve_no_faults. unfold current in He.
    destruct (in_memory store r) as [i d]; simpl in *. by rewrite He.
Qed.

(** C1: a repeat visit leaves the count unchanged and appends no entry.
    The handler does not: for the record of repo1 with count 1 and an entry
    of client 1.2.3.4 at T0, a request of the same client ten minutes later
    is a repeat visit, is answered with count 1, and the record is written
    back with count 2 and a second entry of that client. *)
Theorem repeat_visit_is_counted :
  let store := [mkViewCount "repo1" 1 [mkIPLog "1.2.3.4" T0]] in
  let now := T0 + minutes 10 in
  recentEntry (current store "repo1") "1.2.3.4" now = Some (mkIPLog "1.2.3.4" T0)
  /\ reply no_faults store "repo1" "1.2.3.4" now now
      = Some (mkReply 200 (JSON_stringify (response 1)))
  /\ persisted no_faults store "repo1" "1.2.3.4" now now
      = [mkViewCount "repo1" 2 [mkIPLog "1.2.3.4" T0; mkIPLog "1.2.3.4" now]].
Proof. vm_compute. auto. Qed.

(** ** New visits *)

(** C2: for a client identifier that is not empty, when the record of the
    key (the stored one, or the one just created) holds no entry of the
    client inside the window, the record that is persisted has the count
    raised by exactly one and the entry of the client, stamped with the
    time of the request, appended to the entries that are still inside the
    window. *)
Theorem new_visit_is_recorded store r userIp now stamp :
  userIp <> EmptyString ->
  recentEntry (current store r) userIp now = None ->
  now - oneHour < stamp ->
  record_of (persisted no_faults store r userIp now stamp) r =
    Some {| repo := r;
            views := views (current store r) + 1;
            ipLogs := List.filter (in_window (now - oneHour))
                        (ipLogs (current store r)) ++ [mkIPLog userIp stamp] |}
  /\ count_of (persisted no_faults store r userIp now stamp) r = count_of store r + 1.
Proof.
  intros _ _ Hclock.
  assert (record_of (persisted no_faults store r userIp now stamp) r =
          Some (updated (current store r) userIp now stamp)) as Hrec
    by apply record_of_persisted.
  split.
  - rewrite Hrec. f_equal.
    pose proof (updated_ipLogs_fresh (current store r) userIp now stamp Hclock) as Hl.
    unfold updated, set_ipLogs, set_views in *. simpl in *.
    by rewrite Hl, current_repo.
  - unfold count_of at 1. rewrite Hrec, count_of_current. reflexivity.
Qed.

Lemma new_visit_is_recorded_witness :
  let store := [mkViewCount "repo1" 1 [mkIPLog "1.2.3.4" T0]] in
  let now := T0 + minutes 20 in
  record_of (persisted no_faults store "repo1" "5.6.7.8" now now) "repo1" =
    Some (mkViewCount "repo1" 2 [mkIPLog "1.2.3.4" T0; mkIPLog "5.6.7.8" now])
  /\ count_of (persisted no_faults store "repo1" "5.6.7.8" now now) "repo1" = 2.
Proof.
  refine (new_visit_is_recorded
            [mkViewCount "repo1" 1 [mkIPLog "1.2.3.4" T0]]
            "repo1" "5.6.7.8" (T0 + minutes 20) (T0 + minutes 20)
            _ eq_refl eq_refl).
  intros H. discriminate H.
Defined.

(** ** Pruning *)

(** C3: every record a request writes, whichever store calls reject and on
    either branch, holds only entries stamped strictly later than one hour
    before the request; and a request that nothing rejects does write the
    record of its key. *)
Theorem written_records_are_pruned f store r userIp now stamp :
  (forall i d,
      persisted f store r userIp now stamp !! i = Some d ->
      store !! i <> Some d ->
      Forall (fun log => now - oneHour < timestamp log) (ipLogs d))
  /\ (exists d,
        record_of (persisted no_faults store r userIp now stamp) r = Some d
        /\ views d = count_of store r + 1
        /\ Forall (fun log => now - oneHour < timestamp log) (ipLogs d)).
Proof.
  split.
  - intros i d Hnew Hold. rewrite persisted_cases in Hnew.
    destruct (findOne_rejects f); [done|].
    destruct (list_find (fun d => repo d = r) store) as [[j d0]|] eqn:E.
    + destruct (update_rejects f); [done|].
      apply list_lookup_insert_Some in Hnew as [(-> & <- & _)|[_ Hnew]]; [|done].
      apply updated_pruned.
    + destruct (insert_rejects f); [done|].
      destruct (update_rejects f).
      * apply lookup_app_Some in Hnew as [Hnew|[_ Hnew]]; [done|].
        apply list_lookup_singleton_Some in Hnew as [_ <-]. constructor.
      * apply list_lookup_insert_Some in Hnew as [(_ & <- & _)|[Hne Hnew]].
        { apply updated_pruned. }
        apply lookup_app_Some in Hnew as [Hnew|[Hge Hnew]]; [done|].
        apply list_lookup_singleton_Some in Hnew as [Hz _]. lia.
  - exists (updated (current store r) userIp now stamp).
    split; [apply record_of_persisted|].
    split; [by rewrite updated_views, count_of_current|apply updated_pruned].
Qed.

Lemma written_records_are_pruned_witness :
  let store := [mkViewCount "repo1" 2
                  [mkIPLog "1.2.3.4" T0; mkIPLog "5.6.7.8" (T0 + minutes 20)]] in
  let now := T0 + minutes 120 in
  Forall (fun log => now - oneHour < timestamp log)
         [mkIPLog "1.2.3.4" now].
Proof.
  refine (proj1 (written_records_are_pruned no_faults
           [mkViewCount "repo1" 2
              [mkIPLog "1.2.3.4" T0; mkIPLog "5.6.7.8" (T0 + minutes 20)]]
           "repo1" "1.2.3.4" (T0 + minutes 120) (T0 + minutes 120))
           0%nat (mkViewCount "repo1" 3 [mkIPLog "1.2.3.4" (T0 + minutes 120)])
           eq_refl _).
  vm_compute. intros H. discriminate H.
Defined.

(** ** First request for a key *)



(** ** The count over time *)

Lemma views_never_lowered f store r userIp now stamp i d :
  store !! i = Some d ->
  exists d', persisted f store r userIp now stamp !! i = Some d'
             /\ repo d' = repo d /\ views d <= views d'.
Proof.
  intros Hi. rewrite persisted_cases.
  assert (exists d', store !! i = Some d' /\ repo d' = repo d /\ views d <= views d')
    as Hsame by (exists d; split; [done|split; [done|lia]]).
  assert (forall j d0 (l : list ViewCountDocument),
             l !! i = Some d -> l !! j = Some d0 ->
             exists d', <[j := updated d0 userIp now stamp]> l !! i = Some d'
                        /\ repo d' = repo d /\ views d <= views d') as Hupd.
  { intros j d0 l Hli Hlj. destruct (decide (j = i)) as [->|Hne].
    - exists (updated d0 userIp now stamp).
      rewrite list_lookup_insert_eq by (by eapply lookup_lt_Some).
      assert (d0 = d) as -> by congruence.
      split; [done|]. rewrite updated_repo, updated_views. split; [done|lia].
    - exists d. rewrite list_lookup_insert_ne by done.
      split; [done|split; [done|lia]]. }
  destruct (findOne_rejects f); [done|].
  destruct (list_find (fun d => repo d = r) store) as [[j d0]|] eqn:E.
  - destruct (update_rejects f); [done|].
    destruct (list_find_repo _ _ _ _ E) as [Hl _]. by apply Hupd.
  - destruct (insert_rejects f); [done|].
    assert ((store ++ [mkViewCount r 0 []])%list !! i = Some d) as Happ
      by (by apply lookup_app_l_Some).
    destruct (update_rejects f).
    + exists d. split; [done|split; [done|lia]].
    + apply Hupd; [done|].
      rewrite lookup_app_r by lia. by rewrite Nat.sub_diag.
Qed.

Lemma count_of_step store q key :
  count_of (step store q) key =
  if on_key key q then count_of store key + 1 else count_of store key.
Proof.
  unfold step, on_key.
  destruct (String.eqb_spec (req_repo q) key) as [->|Hne].
  - unfold count_of at 1. rewrite record_of_persisted, count_of_current.
    reflexivity.
  - unfold count_of. by rewrite record_of_other.
Qed.

Lemma count_of_run reqs : forall store key,
  count_of (run reqs store) key =
  count_of store key + Z.of_nat (length (List.filter (on_key key) reqs)).
Proof.
  induction reqs as [|q reqs IH]; intros store key; simpl.
  - lia.
  - rewrite IH, count_of_step. destruct (on_key key q); simpl; lia.
Qed.

(** C5: no request, whatever rejects, lowers the count of any record or
    changes its key; and after a sequence of requests that come with a
    client identifier and that nothing rejects, starting without a record
    for the key, in which every request for the key is a new visit, the
    count of the key is the number of those requests. *)
Theorem count_is_monotone_and_exact :
  (forall f store r userIp now stamp i d,
      store !! i = Some d ->
      exists d', persisted f store r userIp now stamp !! i = Some d'
                 /\ repo d' = repo d /\ views d <= views d')
  /\ (forall key reqs store,
        record_of store key = None ->
        forallb identified reqs = true ->
        all_new_visits key reqs store = true ->
        count_of (run reqs store) key
        = Z.of_nat (length (List.filter (on_key key) reqs))).
Proof.
  split.
  - intros. by apply views_never_lowered.
  - intros key reqs store Habs _ _. rewrite count_of_run.
    unfold count_of at 1. rewrite Habs. simpl. lia.
Qed.

Lemma count_is_monotone_and_exact_witness :
  count_of
    (run [mkRequest "repo1" "1.2.3.4" T0 T0;
          mkRequest "repo2" "1.2.3.4" (T0 + minutes 5) (T0 + minutes 5);
          mkRequest "repo1" "5.6.7.8" (T0 + minutes 20) (T0 + minutes 20);
          mkRequest "repo1" "1.2.3.4" (T0 + minutes 120) (T0 + minutes 120)]
         [])
    "repo1" = 3.
Proof.
  exact (proj2 count_is_monotone_and_exact "repo1"
           [mkRequest "repo1" "1.2.3.4" T0 T0;
            mkRequest "repo2" "1.2.3.4" (T0 + minutes 5) (T0 + minutes 5);
            mkRequest "repo1" "5.6.7.8" (T0 + minutes 20) (T0 + minutes 20);
            mkRequest "repo1" "1.2.3.4" (T0 + minutes 120) (T0 + minutes 120)]
           [] eq_refl eq_refl eq_refl).
Defined.

(** ** Window expiry *)

(** C6: when the latest entry of the client in the record of the key is
    stamped firstTimestamp and the request comes strictly later than one
    hour after it, no entry of the client is recent, the count is raised by
    one and the raised count is reported. *)
Theorem expired_entry_counts_again store r userIp now stamp d firstTimestamp :
  record_of store r = Some d ->
  In (mkIPLog userIp firstTimestamp) (ipLogs d) ->
  (forall log, In log (ipLogs d) -> ip log = userIp ->
               timestamp log <= firstTimestamp) ->
  firstTimestamp + oneHour < now ->
  recentEntry d userIp now = None
  /\ count_of (persisted no_faults store r userIp now stamp) r = views d + 1
  /\ reply no_faults store r userIp now stamp
      = Some (mkReply 200 (JSON_stringify (response (views d + 1)))).
Proof.
  intros Hrec _ Hlatest Hlate.
  assert (current store r = d) as Hcur by (by rewrite current_record, Hrec).
  assert (recentEntry d userIp now = None) as Hnone.
  { apply recentEntry_spec. intros log Hin Hip.
    specialize (Hlatest log Hin Hip). lia. }
  split; [done|]. split.
  - unfold count_of. rewrite record_of_persisted. fold (current store r).
    by rewrite Hcur.
  - rewrite reply_no_faults. simpl. fold (current store r).
    by rewrite Hcur, Hnone.
Qed.

Lemma expired_entry_counts_again_witness :
  let store := [mkViewCount "repo1" 2
                  [mkIPLog "1.2.3.4" T0; mkIPLog "5.6.7.8" (T0 + minutes 20)]] in
  let now := T0 + minutes 60 + 1 in
  count_of (persisted no_faults store "repo1" "1.2.3.4" now now) "repo1" = 3.
Proof.
  refine (proj1 (proj2 (expired_entry_counts_again
     [mkViewCount "repo1" 2
        [mkIPLog "1.2.3.4" T0; mkIPLog "5.6.7.8" (T0 + minutes 20)]]
     "repo1" "1.2.3.4" (T0 + minutes 60 + 1) (T0 + minutes 60 + 1)
     (mkViewCount "repo1" 2
        [mkIPLog "1.2.3.4" T0; mkIPLog "5.6.7.8" (T0 + minutes 20)])
     T0 eq_refl (or_introl eq_refl) _ eq_refl))).
  intros log [<-|[<-|[]]]; simpl; intros Hip.
  - lia.
  - discriminate Hip.
Defined.

(** ** The badge *)

Lemma string_of_uint_digits d : all_digits (NilEmpty.string_of_uint d) = true.
Proof. induction d; simpl; auto. Qed.

Lemma decimal_digits n : 0 <= n -> all_digits (decimal n) = true.
Proof.
  intros H. unfold decimal. destruct n as [|p|p]; [reflexivity| |lia].
  simpl. pose proof (DecimalPos.Unsigned.to_uint_nonnil p) as Hnil.
  pose proof (string_of_uint_digits (Pos.to_uint p)) as Hd.
  by destruct (Pos.to_uint p).
Qed.

Lemma decimal_value_decimal n : decimal_value (decimal n) = Some n.
Proof.
  unfold decimal_value, decimal.
  destruct n as [|p|p]; [reflexivity| |];
    (rewrite NilZero.isi;
     [simpl; f_equal; apply (DecimalZ.of_to (Zpos p)) || apply (DecimalZ.of_to (Zneg p))
     | simpl; intros [= Hn]; by apply (DecimalPos.Unsigned.to_uint_nonnil p)
     | simpl; intros [= Hn]; by apply (DecimalPos.Unsigned.to_uint_nonnil p)]).
Qed.

Lemma String_decimal n : Z.abs n < 10 ^ 21 -> String_ n = decimal n.
Proof.
  intros H. unfold String_.
  destruct (Z.ltb_spec (Z.abs n) (10 ^ 21)); [done|lia].
Qed.

Lemma safe_below_exponent n : 0 <= n < 2 ^ 53 -> Z.abs n < 10 ^ 21.
Proof.
  intros H. assert (2 ^ 53 < 10 ^ 21) by reflexivity.
  rewrite Z.abs_eq by lia. lia.
Qed.

(** C7: the badge is a function of the count alone, with schema version
    1, label Profile View and colour blue; for every count from 0 up to
    2^53 its message is the decimal numeral of the count: a string of
    digits, not empty, whose value is the count. *)
Theorem badge_of_count count :
  0 <= count < 2 ^ 53 ->
  response count
    = {| schemaVersion := 1; label := "Profile View";
         message := decimal count; color := "blue" |}
  /\ all_digits (message (response count)) = true
  /\ message (response count) <> EmptyString
  /\ decimal_value (message (response count)) = Some count.
Proof.
  intros H. pose proof (safe_below_exponent count H) as Hs.
  unfold response. cbn [message]. rewrite (String_decimal count Hs).
  split; [reflexivity|]. split; [apply decimal_digits; lia|]. split.
  - intros Hempty.
    pose proof (decimal_value_decimal count) as Hv.
    rewrite Hempty in Hv. discriminate Hv.
  - apply decimal_value_decimal.
Qed.

Lemma badge_of_count_witness :
  response 42
    = {| schemaVersion := 1; label := "Profile View";
         message := "42"; color := "blue" |}
  /\ decimal_value "42" = Some 42.
Proof.
  assert (0 <= 42 < 2 ^ 53) as H by (split; reflexivity || discriminate).
  split.
  - exact (proj1 (badge_of_count 42 H)).
  - exact (proj2 (proj2 (proj2 (badge_of_count 42 H)))).
Defined.

(** The message of the badge of 10^21 is in exponent notation: it is not a
    string of digits and not a decimal numeral, so what C7 says of every
    count that is not negative fails there. *)
Lemma badge_of_count_fails_at_1e21 :
  ~ (forall count, 0 <= count ->
       all_digits (message (response count)) = true
       /\ decimal_value (message (response count)) = Some count).
Proof.
  intros H. destruct (H (10 ^ 21)) as [Hd _]; [discriminate|].
  vm_compute in Hd. discriminate Hd.
Qed.

(** ** Failures *)

Lemma reply_cases f store r userIp now stamp :
  reply f store r userIp now stamp =
  if findOne_rejects f then Some (mkReply 500 "Server Error") else
  match record_of store r with
  | Some d =>
      match recentEntry d userIp now with
      | Some _ => Some (mkReply 200 (JSON_stringify (response (views d))))
      | None =>
          if update_rejects f then Some (mkReply 500 "Server Error")
          else Some (mkReply 200 (JSON_stringify (response (views d + 1))))
      end
  | None =>
      if insert_rejects f then Some (mkReply 500 "Server Error") else
      if update_rejects f then Some (mkReply 500 "Server Error")
      else Some (mkReply 200 (JSON_stringify (response 1)))
  end.
Proof.
  unfold reply, serve, handler, try_catch, bind, find_or_create, bind,
    findOne, save_new, save, send, ret, throw, record_of.
  destruct f as [[] [] []]; simpl;
    destruct (list_find (fun d => repo d = r) store) as [[i d]|]; simpl;
    try (match goal with
         | |- context [recentEntry ?d userIp now] =>
             destruct (recentEntry d userIp now)
         end); reflexivity.
Qed.


(** C8: every failure during the request surfaces as a response with
    status 500. The handler misses this on a repeat visit: for the record
    of repo1 with an entry of client 1.2.3.4 at T0 and a request of that
    client ten minutes later whose write is rejected, the response is the
    200 already sent on line 87, the send of the 500 throws in turn and the
    handler ends with that error uncaught; the stored record is as before. *)
Theorem failure_on_repeat_visit_is_not_reported :
  let store := [mkViewCount "repo1" 1 [mkIPLog "1.2.3.4" T0]] in
  let now := T0 + minutes 10 in
  let f := {| findOne_rejects := false; insert_rejects := false;
              update_rejects := true |} in
  serve f store "repo1" "1.2.3.4" now now
  = (Throw HeadersSent,
     {| db := store;
        sent := Some (mkReply 200 (JSON_stringify (response 1))) |}).
Proof. vm_compute. reflexivity. Qed.

(** ** Key isolation *)

Lemma other_documents_untouched f store a userIp now stamp i d :
  repo d <> a ->
  persisted f store a userIp now stamp !! i = Some d <-> store !! i = Some d.
Proof.
  intros Hd. rewrite persisted_cases.
  destruct (findOne_rejects f); [done|].
  destruct (list_find (fun d => repo d = a) store) as [[j d0]|] eqn:E.
  - destruct (update_rejects f); [done|].
    destruct (list_find_repo _ _ _ _ E) as [Hl Hr].
    rewrite list_lookup_insert_Some. split.
    + intros [(_ & <- & _)|[_ H]]; [|done]. by rewrite updated_repo in Hd.
    + intros H. right. split; [|done]. intros ->. congruence.
  - destruct (insert_rejects f); [done|].
    assert ((store ++ [mkViewCount a 0 []])%list !! i = Some d
            <-> store !! i = Some d) as Happ.
    { rewrite lookup_app_Some. split.
      - intros [H|[_ H]]; [done|].
        apply list_lookup_singleton_Some in H as [_ <-]. done.
      - auto. }
    destruct (update_rejects f); [done|].
    rewrite list_lookup_insert_Some, Happ. split.
    + intros [(_ & <- & _)|[_ H]]; [|done]. by rewrite updated_repo in Hd.
    + intros H. right. split; [|done]. intros <-.
      apply lookup_lt_Some in H. lia.
Qed.

(** C9: for two distinct keys, a request for the first, whatever rejects,
    leaves the record of the second as it was, and every document of the
    second key at its place; and nothing the request does depends on
    records of other keys: on two collections that hold the same record
    for the first key, the response and the record afterwards are the
    same. *)
Theorem keys_are_isolated f store a b userIp now stamp :
  a <> b ->
  record_of (persisted f store a userIp now stamp) b = record_of store b
  /\ (forall i d, repo d = b ->
        (persisted f store a userIp now stamp !! i = Some d <-> store !! i = Some d))
  /\ (forall store',
        record_of store' a = record_of store a ->
        reply f store' a userIp now stamp = reply f store a userIp now stamp
        /\ record_of (persisted f store' a userIp now stamp) a
           = record_of (persisted f store a userIp now stamp) a).
Proof.
  intros Hab. split; [by apply record_of_other|]. split.
  - intros i d Hd. apply other_documents_untouched. congruence.
  - intros store' Hsame.
    rewrite !reply_cases, !record_of_persisted_cases, Hsame. done.
Qed.

Lemma keys_are_isolated_witness :
  let store := [mkViewCount "repo1" 1 [mkIPLog "1.2.3.4" T0];
                mkViewCount "repo2" 7 [mkIPLog "5.6.7.8" T0]] in
  record_of (persisted no_faults store "repo1" "5.6.7.8" (T0 + 1) (T0 + 1)) "repo2"
  = Some (mkViewCount "repo2" 7 [mkIPLog "5.6.7.8" T0]).
Proof.
  refine (eq_trans (proj1 (keys_are_isolated no_faults
     [mkViewCount "repo1" 1 [mkIPLog "1.2.3.4" T0];
      mkViewCount "repo2" 7 [mkIPLog "5.6.7.8" T0]]
     "repo1" "repo2" "5.6.7.8" (T0 + 1) (T0 + 1) _)) eq_refl).
  intros H. discriminate H.
Defined.

(** ** The entry of the requesting client *)

(** C10: after a request of a client identifier that is not empty, which
    nothing rejects, the record of the key holds the entry just appended
    for the client, holds the recent entry that was found if there was one,
    and so holds an entry of the client stamped strictly later than one
    hour before the request. *)
Theorem client_entry_survives store r userIp now stamp :
  userIp <> EmptyString ->
  now - oneHour < stamp ->
  exists d,
    record_of (persisted no_faults store r userIp now stamp) r = Some d
    /\ In (mkIPLog userIp stamp) (ipLogs d)
    /\ (forall e, recentEntry (current store r) userIp now = Some e ->
                  In e (ipLogs d))
    /\ (exists log, In log (ipLogs d) /\ ip log = userIp
                    /\ now - oneHour < timestamp log).
Proof.
  intros _ Hclock. exists (updated (current store r) userIp now stamp).
  split; [apply record_of_persisted|].
  assert (In (mkIPLog userIp stamp)
             (ipLogs (updated (current store r) userIp now stamp))) as Hin.
  { rewrite updated_ipLogs_fresh by done. apply in_or_app. right. by left. }
  split; [done|]. split.
  - intros e He. apply recentEntry_found in He as (Hin' & _ & Hts).
    rewrite updated_ipLogs. apply List.filter_In. split.
    + apply in_or_app. by left.
    + by apply in_window_spec.
  - exists (mkIPLog userIp stamp). done.
Qed.

Lemma client_entry_survives_witness :
  let store := [mkViewCount "repo1" 1 [mkIPLog "1.2.3.4" T0]] in
  let now := T0 + minutes 10 in
  exists d,
    record_of (persisted no_faults store "repo1" "1.2.3.4" now now) "repo1" = Some d
    /\ In (mkIPLog "1.2.3.4" now) (ipLogs d)
    /\ (forall e, recentEntry (current store "repo1") "1.2.3.4" now = Some e ->
                  In e (ipLogs d))
    /\ (exists log, In log (ipLogs d) /\ ip log = "1.2.3.4"
                    /\ now - oneHour < timestamp log).
Proof.
  refine (client_entry_survives
            [mkViewCount "repo1" 1 [mkIPLog "1.2.3.4" T0]]
            "repo1" "1.2.3.4" (T0 + minutes 10) (T0 + minutes 10) _ eq_refl).
  intros H. discriminate H.
Defined.

(** ** Further properties of the handler *)

Lemma current_step store q key :
  current (step store q) key =
  if on_key key q
  then updated (current store key) (req_ip q) (req_now q) (req_stamp q)
  else current store key.
Proof.
  unfold step, on_key. rewrite !current_record.
  destruct (String.eqb_spec (req_repo q) key) as [->|Hne].
  - rewrite record_of_persisted. simpl. fold (current store key).
    by rewrite current_record.
  - by rewrite record_of_other.
Qed.

Lemma recentEntry_some d userIp now e :
  In e (ipLogs d) -> ip e = userIp -> now - oneHour < timestamp e ->
  exists e', recentEntry d userIp now = Some e'.
Proof.
  intros Hin Hip Hts. destruct (recentEntry d userIp now) as [e'|] eqn:E; [eauto|].
  pose proof (proj1 (recentEntry_spec d userIp now) E e Hin Hip). lia.
Qed.

Lemma outcome_cases f store r userIp now stamp :
  fst (serve f store r userIp now stamp) =
  if findOne_rejects f then Ok tt else
  match recentEntry (current store r) userIp now with
  | Some _ => Throw HeadersSent
  | None => Ok tt
  end.
Proof.
  unfold serve, handler, try_catch, bind, find_or_create, bind,
    findOne, save_new, save, send, ret, throw, current, in_memory.
  destruct f as [[] [] []]; simpl;
    destruct (list_find (fun d => repo d = r) store) as [[i d]|]; simpl;
    try (match goal with
         | |- context [recentEntry ?d userIp now] =>
             destruct (recentEntry d userIp now)
         end); reflexivity.
Qed.

(** Every request that comes with a client identifier and that nothing
    rejects raises the count of its key, repeat visit or not: after a
    sequence of such requests the count of a key is the count before plus
    the number of requests for the key. *)
Theorem every_request_is_counted key reqs store :
  forallb identified reqs = true ->
  count_of (run reqs store) key
  = count_of store key + Z.of_nat (length (List.filter (on_key key) reqs)).
Proof. intros _. apply count_of_run. Qed.

Lemma every_request_is_counted_witness :
  count_of
    (run [mkRequest "repo1" "1.2.3.4" T0 T0;
          mkRequest "repo1" "1.2.3.4" (T0 + minutes 10) (T0 + minutes 10);
          mkRequest "repo2" "1.2.3.4" (T0 + minutes 15) (T0 + minutes 15)]
         [mkViewCount "repo1" 5 []])
    "repo1" = 7.
Proof.
  exact (every_request_is_counted "repo1"
           [mkRequest "repo1" "1.2.3.4" T0 T0;
            mkRequest "repo1" "1.2.3.4" (T0 + minutes 10) (T0 + minutes 10);
            mkRequest "repo2" "1.2.3.4" (T0 + minutes 15) (T0 + minutes 15)]
           [mkViewCount "repo1" 5 []] eq_refl).
Defined.

(** A client is the forwarded header of its requests, whatever socket they
    come from: when a request with a header that is not empty is a new
    visit, the next request for the key with the same header, inside the
    hour, is answered with the same count as the first. *)
Theorem repeat_within_the_hour_reports_the_same_count
    store r h remote1 remote2 now1 stamp1 now2 stamp2 :
  h <> EmptyString ->
  recentEntry (current store r) h now1 = None ->
  now1 - oneHour < stamp1 ->
  now2 - oneHour < stamp1 ->
  let first := userIp_of (Some h) remote1 in
  let second := userIp_of (Some h) remote2 in
  reply no_faults store r first now1 stamp1
    = Some (mkReply 200 (JSON_stringify (response (count_of store r + 1))))
  /\ reply no_faults (persisted no_faults store r first now1 stamp1)
        r second now2 stamp2
      = reply no_faults store r first now1 stamp1.
Proof.
  intros Hh Hnew Hc1 Hc2. cbv zeta.
  assert (forall remote, userIp_of (Some h) remote = h) as Hip.
  { intros remote. unfold userIp_of.
    by destruct (String.eqb_spec h EmptyString). }
  rewrite !Hip.
  assert (reply no_faults store r h now1 stamp1
          = Some (mkReply 200 (JSON_stringify (response (count_of store r + 1)))))
    as Hfirst.
  { rewrite reply_no_faults. simpl. fold (current store r).
    by rewrite Hnew, count_of_current. }
  split; [done|]. rewrite Hfirst, reply_no_faults. simpl.
  fold (current (persisted no_faults store r h now1 stamp1) r).
  rewrite (current_record (persisted no_faults store r h now1 stamp1) r).
  rewrite record_of_persisted. simpl. fold (current store r).
  destruct (recentEntry_some (updated (current store r) h now1 stamp1) h now2
              (mkIPLog h stamp1)) as [e' He']; [|done|done|].
  - rewrite updated_ipLogs_fresh by done. apply in_or_app. right. by left.
  - rewrite He', count_of_current. reflexivity.
Qed.

Lemma repeat_within_the_hour_reports_the_same_count_witness :
  reply no_faults
    (persisted no_faults [] "repo1" "1.2.3.4" T0 T0)
    "repo1" "1.2.3.4" (T0 + minutes 10) (T0 + minutes 10)
  = reply no_faults [] "repo1" "1.2.3.4" T0 T0.
Proof.
  refine (proj2 (repeat_within_the_hour_reports_the_same_count
            [] "repo1" "1.2.3.4" "10.0.0.1" "10.0.0.2"
            T0 T0 (T0 + minutes 10) (T0 + minutes 10)
            _ eq_refl eq_refl eq_refl)).
  intros H. discriminate H.
Defined.

(** Every request is answered, once: with status 500 and the text
    Server Error, or with status 200 and the badge of a count that is the
    count of the key before the request or one more. *)
Theorem every_request_is_answered f store r userIp now stamp :
  exists rep,
    reply f store r userIp now stamp = Some rep
    /\ ((status rep = 500 /\ body rep = "Server Error")
        \/ (status rep = 200
            /\ exists c, body rep = JSON_stringify (response c)
                         /\ count_of store r <= c <= count_of store r + 1)).
Proof.
  rewrite reply_cases. unfold count_of.
  assert (forall c, count_of store r <= c <= count_of store r + 1 ->
            exists rep, Some (mkReply 200 (JSON_stringify (response c))) = Some rep
              /\ ((status rep = 500 /\ body rep = "Server Error")
                  \/ (status rep = 200
                      /\ exists c', body rep = JSON_stringify (response c')
                                    /\ count_of store r <= c' <= count_of store r + 1)))
    as Hok.
  { intros c Hc. eexists. split; [done|]. right. simpl. eauto. }
  assert (exists rep, Some (mkReply 500 "Server Error") = Some rep
              /\ ((status rep = 500 /\ body rep = "Server Error")
                  \/ (status rep = 200
                      /\ exists c', body rep = JSON_stringify (response c')
                                    /\ count_of store r <= c' <= count_of store r + 1)))
    as Herr.
  { eexists. split; [done|]. left. done. }
  unfold count_of in *.
  destruct (findOne_rejects f); [done|].
  destruct (record_of store r) as [d|]; simpl in *.
  - destruct (recentEntry d userIp now).
    + apply Hok. lia.
    + destruct (update_rejects f); [done|]. apply Hok. lia.
  - destruct (insert_rejects f); [done|].
    destruct (update_rejects f); [done|]. apply Hok. lia.
Qed.

(** A request answered with status 500 has counted nothing: every document
    that was in the collection is there unchanged, and the count of every
    key is what it was. *)
Theorem error_reply_counts_nothing f store r userIp now stamp rep :
  reply f store r userIp now stamp = Some rep ->
  status rep = 500 ->
  (forall i d, store !! i = Some d ->
               persisted f store r userIp now stamp !! i = Some d)
  /\ (forall k, count_of (persisted f store r userIp now stamp) k = count_of store k).
Proof.
  rewrite reply_cases, persisted_cases. unfold count_of, record_of.
  intros Hrep Hst.
  destruct (findOne_rejects f); [done|].
  destruct (list_find (fun d => repo d = r) store) as [[i0 d0]|] eqn:E;
    simpl in Hrep.
  - destruct (recentEntry d0 userIp now).
    { injection Hrep as <-. simpl in Hst. lia. }
    destruct (update_rejects f); [done|].
    injection Hrep as <-. simpl in Hst. lia.
  - destruct (insert_rejects f); [done|].
    destruct (update_rejects f).
    + split.
      * intros i d Hi. by apply lookup_app_l_Some.
      * intros k. rewrite list_find_snoc.
        destruct (list_find (fun x => repo x = k) store) as [[j x]|]; [done|].
        simpl. by destruct (decide (r = k)).
    + injection Hrep as <-. simpl in Hst. lia.
Qed.

Lemma error_reply_counts_nothing_witness :
  let f := {| findOne_rejects := false; insert_rejects := false;
              update_rejects := true |} in
  let store := [mkViewCount "repo1" 4 [mkIPLog "1.2.3.4" T0]] in
  count_of (persisted f store "repo1" "5.6.7.8" (T0 + 1) (T0 + 1)) "repo1" = 4.
Proof.
  exact (proj2 (error_reply_counts_nothing
           {| findOne_rejects := false; insert_rejects := false;
              update_rejects := true |}
           [mkViewCount "repo1" 4 [mkIPLog "1.2.3.4" T0]]
           "repo1" "5.6.7.8" (T0 + 1) (T0 + 1)
           (mkReply 500 "Server Error") eq_refl eq_refl) "repo1").
Defined.

(** The handler never ends with a store error uncaught, and ends with an
    error at all exactly when the lookup succeeds and finds a recent entry
    of the client: the second send of the fall-through throws, and so does
    the one of the catch block. *)
Theorem handler_rejects_exactly_on_repeat_visits f store r userIp now stamp :
  fst (serve f store r userIp now stamp) <> Throw StoreError
  /\ (fst (serve f store r userIp now stamp) = Throw HeadersSent
      <-> findOne_rejects f = false
          /\ exists e, recentEntry (current store r) userIp now = Some e).
Proof.
  rewrite outcome_cases.
  destruct (findOne_rejects f).
  - split; [done|]. split; [done|]. intros [? _]. done.
  - destruct (recentEntry (current store r) userIp now) as [e|].
    + split; [done|]. split; eauto.
    + split; [done|]. split; [done|]. intros [_ [e He]]. done.
Qed.

(** ** The documents of the collection *)

Lemma keys_update (store : list ViewCountDocument) i d d' :
  store !! i = Some d -> repo d' = repo d ->
  keys (<[i := d']> store) = keys store.
Proof.
  intros Hi Hr. unfold keys.
  change (List.map repo (<[i := d']> store)) with (repo <$> <[i := d']> store).
  rewrite list_fmap_insert, Hr. apply list_insert_id.
  by rewrite list_lookup_fmap, Hi.
Qed.

Lemma keys_snoc store d : keys (store ++ [d]) = (keys store ++ [repo d])%list.
Proof. unfold keys. by rewrite List.map_app. Qed.

Lemma keys_persisted_cases f store r userIp now stamp :
  keys (persisted f store r userIp now stamp) =
  match record_of store r with
  | Some _ => keys store
  | None => if findOne_rejects f || insert_rejects f then keys store
            else (keys store ++ [r])%list
  end.
Proof.
  rewrite persisted_cases. unfold record_of.
  destruct (findOne_rejects f); simpl.
  { by destruct (list_find (fun d => repo d = r) store). }
  destruct (list_find (fun d => repo d = r) store) as [[i d]|] eqn:E; simpl.
  - destruct (update_rejects f); [done|].
    destruct (list_find_repo _ _ _ _ E) as [Hl Hr].
    by apply (keys_update store i d).
  - destruct (insert_rejects f); [done|].
    destruct (update_rejects f); [by rewrite keys_snoc|].
    rewrite (keys_update _ (length store) (mkViewCount r 0 [])).
    + by rewrite keys_snoc.
    + rewrite lookup_app_r by lia. by rewrite Nat.sub_diag.
    + done.
Qed.

(** A request never removes or reorders documents and never changes a key:
    the keys of the collection are the same afterwards, with the requested
    key added at the end exactly when it had no document and neither the
    lookup nor the insertion was rejected. *)
Theorem keys_of_persisted f store r userIp now stamp :
  keys (persisted f store r userIp now stamp) =
  match record_of store r with
  | Some _ => keys store
  | None => if findOne_rejects f || insert_rejects f then keys store
            else (keys store ++ [r])%list
  end
  /\ (length store <= length (persisted f store r userIp now stamp))%nat.
Proof.
  pose proof (keys_persisted_cases f store r userIp now stamp) as H.
  split; [done|].
  apply (f_equal (@length string)) in H. unfold keys in H.
  rewrite List.length_map in H. rewrite H.
  destruct (record_of store r); [by rewrite List.length_map|].
  destruct (findOne_rejects f || insert_rejects f).
  - by rewrite List.length_map.
  - rewrite length_app, List.length_map. simpl. lia.
Qed.

(** One document per key is an invariant of the handler: if no two
    documents of the collection have the same key, the same holds after a
    request, whatever is rejected. *)
Theorem one_document_per_key f store r userIp now stamp :
  NoDup (keys store) ->
  NoDup (keys (persisted f store r userIp now stamp)).
Proof.
  intros Hnd. rewrite keys_persisted_cases. unfold record_of.
  destruct (list_find (fun d => repo d = r) store) as [[i d]|] eqn:E; [done|].
  simpl. destruct (findOne_rejects f || insert_rejects f); [done|].
  apply NoDup_app. split; [done|]. split; [|apply NoDup_singleton].
  intros k Hk Hin. apply list_elem_of_singleton in Hin as ->.
  apply list_find_None in E. unfold keys in Hk.
  apply list_elem_of_In, List.in_map_iff in Hk as (x & Hx & Hin).
  apply list_elem_of_In in Hin.
  rewrite Forall_forall in E. by apply (E x Hin).
Qed.

Lemma one_document_per_key_witness :
  NoDup (keys (persisted no_faults
                 [mkViewCount "repo1" 1 [mkIPLog "1.2.3.4" T0]]
                 "repo2" "1.2.3.4" (T0 + 1) (T0 + 1))).
Proof.
  apply one_document_per_key. unfold keys. simpl.
  apply NoDup_singleton.
Defined.

(** ** Requests for different keys *)

(** Requests for two distinct keys commute, whatever is rejected in either:
    served in one order or the other, each gets the same response and the
    collection ends with the same record for every key. *)
Theorem requests_for_distinct_keys_commute
    fa fb store a b ipa ipb nowa stampa nowb stampb :
  a <> b ->
  reply fa (persisted fb store b ipb nowb stampb) a ipa nowa stampa
    = reply fa store a ipa nowa stampa
  /\ reply fb (persisted fa store a ipa nowa stampa) b ipb nowb stampb
      = reply fb store b ipb nowb stampb
  /\ (forall k,
        record_of (persisted fb (persisted fa store a ipa nowa stampa)
                     b ipb nowb stampb) k
        = record_of (persisted fa (persisted fb store b ipb nowb stampb)
                       a ipa nowa stampa) k).
Proof.
  intros Hab.
  assert (b <> a) as Hba by congruence.
  split; [|split].
  - by rewrite !reply_cases, record_of_other.
  - by rewrite !reply_cases, record_of_other.
  - intros k. destruct (decide (k = a)) as [->|Hka].
    + rewrite (record_of_other fb _ b a) by done.
      by rewrite !record_of_persisted_cases, record_of_other.
    + rewrite (record_of_other fa _ a k) by congruence.
      destruct (decide (k = b)) as [->|Hkb].
      * by rewrite !record_of_persisted_cases, record_of_other.
      * rewrite !record_of_other by congruence. done.
Qed.

Lemma requests_for_distinct_keys_commute_witness :
  let store := [mkViewCount "repo1" 1 [mkIPLog "1.2.3.4" T0]] in
  reply no_faults (persisted no_faults store "repo2" "1.2.3.4" T0 T0)
        "repo1" "5.6.7.8" (T0 + 1) (T0 + 1)
  = reply no_faults store "repo1" "5.6.7.8" (T0 + 1) (T0 + 1).
Proof.
  refine (proj1 (requests_for_distinct_keys_commute no_faults no_faults
            [mkViewCount "repo1" 1 [mkIPLog "1.2.3.4" T0]]
            "repo1" "repo2" "5.6.7.8" "1.2.3.4" (T0 + 1) (T0 + 1) T0 T0 _)).
  intros H. discriminate H.
Defined.

(** ** The log of a record *)

Lemma filter_length_bound (p : IPLog -> bool) l :
  (length (List.filter p l) <= length l)%nat.
Proof. induction l as [|x l IH]; simpl; [lia|]. destruct (p x); simpl; lia. Qed.

Lemma updated_length d userIp now stamp :
  (length (ipLogs (updated d userIp now stamp)) <= length (ipLogs d) + 1)%nat.
Proof.
  rewrite updated_ipLogs.
  pose proof (filter_length_bound (in_window (now - oneHour))
                (ipLogs d ++ [mkIPLog userIp stamp])) as H.
  rewrite length_app in H. simpl in H. lia.
Qed.

(** The entries that a request of a client identifier that is not empty,
    which nothing rejects, leaves in the record of its key are the old
    entries and the new one, as far as they are stamped strictly later than
    one hour before the request: no entry inside the window is lost, of
    whatever client, and none is made up. *)
Theorem entries_after_a_request store r userIp now stamp :
  userIp <> EmptyString ->
  exists d,
    record_of (persisted no_faults store r userIp now stamp) r = Some d
    /\ forall e,
         In e (ipLogs d) <->
         (In e (ipLogs (current store r)) \/ e = mkIPLog userIp stamp)
         /\ now - oneHour < timestamp e.
Proof.
  intros _. exists (updated (current store r) userIp now stamp).
  split; [apply record_of_persisted|].
  intros e. rewrite updated_ipLogs, List.filter_In, in_window_spec, in_app_iff.
  simpl. intuition congruence.
Qed.

Lemma entries_after_a_request_witness :
  let store := [mkViewCount "repo1" 2
                  [mkIPLog "1.2.3.4" T0; mkIPLog "5.6.7.8" (T0 + minutes 50)]] in
  let now := T0 + minutes 70 in
  exists d,
    record_of (persisted no_faults store "repo1" "9.9.9.9" now now) "repo1" = Some d
    /\ forall e,
         In e (ipLogs d) <->
         (In e (ipLogs (current store "repo1")) \/ e = mkIPLog "9.9.9.9" now)
         /\ now - oneHour < timestamp e.
Proof.
  refine (entries_after_a_request
            [mkViewCount "repo1" 2
               [mkIPLog "1.2.3.4" T0; mkIPLog "5.6.7.8" (T0 + minutes 50)]]
            "repo1" "9.9.9.9" (T0 + minutes 70) (T0 + minutes 70) _).
  intros H. discriminate H.
Defined.

(** The log of a key grows by at most one entry for each request for the
    key: after a sequence of requests it is no longer than it was plus the
    number of those requests. *)
Theorem log_grows_with_requests key reqs : forall store,
  (length (ipLogs (current (run reqs store) key))
   <= length (ipLogs (current store key))
      + length (List.filter (on_key key) reqs))%nat.
Proof.
  induction reqs as [|q reqs IH]; intros store; simpl; [lia|].
  specialize (IH (step store q)). rewrite current_step in IH.
  destruct (on_key key q); simpl; [|lia].
  pose proof (updated_length (current store key) (req_ip q) (req_now q)
                (req_stamp q)).
  lia.
Qed.

(** ** The body of the response *)

Lemma append_length (s t : string) :
  String.length (s ++ t) = (String.length s + String.length t)%nat.
Proof. induction s as [|c s IH]; simpl; [done|]. by rewrite IH. Qed.

Lemma append_inv_head (p s t : string) : p ++ s = p ++ t -> s = t.
Proof. induction p as [|c p IH]; simpl; [done|]. intros [= H]. auto. Qed.

Lemma append_inv_tail (t : string) : forall s1 s2 : string,
  s1 ++ t = s2 ++ t -> s1 = s2.
Proof.
  induction s1 as [|c s1 IH]; intros [|c' s2] H; simpl in H.
  - done.
  - apply (f_equal String.length) in H.
    rewrite !append_length in H. simpl in H. lia.
  - apply (f_equal String.length) in H.
    rewrite !append_length in H. simpl in H. lia.
  - injection H as -> H. f_equal. by apply IH.
Qed.

Lemma decimal_inj a b : decimal a = decimal b -> a = b.
Proof.
  intros H. apply (f_equal decimal_value) in H.
  rewrite !decimal_value_decimal in H. by injection H.
Qed.

Lemma all_digits_no_e s : all_digits s = true -> no_e s = true.
Proof.
  induction s as [|c s IH]; [done|]. cbn [all_digits no_e].
  intros [Hc Hs]%andb_true_iff. rewrite (IH Hs), andb_true_r.
  destruct (Ascii.eqb_spec c "e") as [->|]; [discriminate Hc|done].
Qed.

Lemma all_digits_strip s : all_digits s = true -> all_digits (strip_zeros s) = true.
Proof.
  induction s as [|c s IH]; [done|]. cbn [all_digits strip_zeros].
  intros [Hc Hs]%andb_true_iff. specialize (IH Hs).
  destruct (strip_zeros s) as [|c' r].
  - destruct (Ascii.eqb c "0"); [done|]. cbn [all_digits]. by rewrite Hc.
  - change (all_digits (String c (String c' r)))
      with (is_digit c && all_digits (String c' r)).
    by rewrite Hc, IH.
Qed.

Lemma append_nil_l (s : string) : EmptyString ++ s = s.
Proof. reflexivity. Qed.

Lemma append_cons c (s t : string) : String c s ++ t = String c (s ++ t).
Proof. reflexivity. Qed.

Ltac norm_append := rewrite ?append_cons, ?append_nil_l.
Ltac norm_append_in H := rewrite ?append_cons, ?append_nil_l in H.

Lemma no_e_mantissa s : no_e s = true -> no_e (mantissa s) = true.
Proof.
  destruct s as [|c [|c' r]]; [done..|]. cbn [mantissa]. norm_append.
  cbn [no_e]. intros [Hc Hs]%andb_true_iff. rewrite Hc. exact Hs.
Qed.

Lemma no_e_decimal n : no_e (decimal n) = true.
Proof.
  destruct n as [|p|p].
  - reflexivity.
  - apply all_digits_no_e, decimal_digits. lia.
  - unfold decimal. cbn [Z.to_int NilZero.string_of_int no_e].
    apply andb_true_iff. split; [reflexivity|].
    apply all_digits_no_e.
    pose proof (string_of_uint_digits (Pos.to_uint p)) as Hd.
    by destruct (Pos.to_uint p).
Qed.

Lemma strip_zeros_pad s :
  s = strip_zeros s
      ++ zeros (String.length s - String.length (strip_zeros s)).
Proof.
  induction s as [|c s IH]; [done|]. cbn [strip_zeros].
  destruct (strip_zeros s) as [|c' r].
  - cbn [String.length] in IH. norm_append_in IH. rewrite Nat.sub_0_r in IH.
    destruct (Ascii.eqb_spec c "0") as [->|].
    + cbn [String.length]. norm_append.
      change (S (String.length s) - 0)%nat with (S (String.length s)).
      cbn [zeros]. by rewrite <- IH.
    + cbn [String.length]. norm_append.
      change (S (String.length s) - 1)%nat with (String.length s - 0)%nat.
      by rewrite Nat.sub_0_r, <- IH.
  - rewrite append_cons. f_equal. exact IH.
Qed.

Lemma strip_zeros_determines s1 s2 :
  strip_zeros s1 = strip_zeros s2 ->
  String.length s1 = String.length s2 -> s1 = s2.
Proof.
  intros Hs Hl. etrans; [apply strip_zeros_pad|].
  rewrite Hs, Hl. symmetry. apply strip_zeros_pad.
Qed.

Lemma mantissa_inj s1 s2 : mantissa s1 = mantissa s2 -> s1 = s2.
Proof.
  destruct s1 as [|c1 [|d1 r1]], s2 as [|c2 [|d2 r2]];
    cbn [mantissa]; norm_append; intros H; by simplify_eq.
Qed.

Lemma split_at_e p1 : forall p2 q1 q2,
  no_e p1 = true -> no_e p2 = true ->
  p1 ++ String "e" q1 = p2 ++ String "e" q2 -> p1 = p2 /\ q1 = q2.
Proof.
  induction p1 as [|c p1 IH]; intros [|c' p2] q1 q2 H1 H2;
    norm_append; cbn [no_e] in *; intros H.
  - by injection H.
  - injection H as <- _. discriminate H2.
  - injection H as -> _. discriminate H1.
  - injection H as -> H.
    apply andb_true_iff in H1 as [_ H1]. apply andb_true_iff in H2 as [_ H2].
    destruct (IH p2 q1 q2 H1 H2 H) as [-> ->]. done.
Qed.

Lemma no_e_not_exponent p : forall s q,
  no_e s = true -> s <> p ++ String "e" q.
Proof.
  induction p as [|c p IH]; intros s q Hs ->; norm_append_in Hs;
    cbn [no_e] in Hs.
  - discriminate Hs.
  - apply andb_true_iff in Hs as [_ Hs]. by apply (IH _ q Hs).
Qed.

Lemma exponential_shape n :
  exponential n
  = mantissa (strip_zeros (decimal n))
    ++ String "e" (String "+" (decimal (Z.of_nat (String.length (decimal n)) - 1))).
Proof. reflexivity. Qed.

Lemma no_e_significand n : 0 <= n -> no_e (mantissa (strip_zeros (decimal n))) = true.
Proof.
  intros H. apply no_e_mantissa, all_digits_no_e, all_digits_strip.
  by apply decimal_digits.
Qed.

Lemma exponential_inj a b :
  0 <= a -> 0 <= b -> exponential a = exponential b -> a = b.
Proof.
  intros Ha Hb. rewrite !exponential_shape. intros H.
  apply split_at_e in H as [Hm Hq]; [|by apply no_e_significand..].
  injection Hq as Hq. apply decimal_inj in Hq.
  apply mantissa_inj in Hm.
  apply decimal_inj, strip_zeros_determines; [done|lia].
Qed.

Lemma exponential_head n rest : 0 <= n -> exponential n <> String "-" rest.
Proof.
  intros Hn. rewrite exponential_shape.
  pose proof (all_digits_strip _ (decimal_digits n Hn)) as Hd.
  destruct (strip_zeros (decimal n)) as [|c [|c' r]];
    cbn [mantissa]; norm_append; cbn [all_digits] in Hd; intros H.
  - discriminate H.
  - injection H as -> _. discriminate Hd.
  - injection H as -> _. discriminate Hd.
Qed.

Lemma decimal_not_exponential a b :
  0 <= b -> decimal a <> String "-" (exponential b) /\ decimal a <> exponential b.
Proof.
  intros Hb. rewrite exponential_shape. split.
  - rewrite <- append_cons. apply no_e_not_exponent, no_e_decimal.
  - apply no_e_not_exponent, no_e_decimal.
Qed.

Lemma String_inj a b : String_ a = String_ b -> a = b.
Proof.
  unfold String_.
  destruct (Z.ltb_spec (Z.abs a) (10 ^ 21)) as [Ha|Ha];
    destruct (Z.ltb_spec (Z.abs b) (10 ^ 21)) as [Hb|Hb].
  - apply decimal_inj.
  - destruct (Z.ltb_spec b 0) as [Hn|Hn]; norm_append; intros H.
    + by apply (decimal_not_exponential a (- b)) in H; [|lia].
    + by apply (decimal_not_exponential a b) in H.
  - destruct (Z.ltb_spec a 0) as [Hn|Hn]; norm_append; intros H; symmetry in H.
    + by apply (decimal_not_exponential b (- a)) in H; [|lia].
    + by apply (decimal_not_exponential b a) in H.
  - destruct (Z.ltb_spec a 0) as [Hna|Hna]; destruct (Z.ltb_spec b 0) as [Hnb|Hnb];
      norm_append; intros H.
    + injection H as H. apply exponential_inj in H; lia.
    + symmetry in H. apply exponential_head in H; [done|lia].
    + apply exponential_head in H; [done|lia].
    + apply exponential_inj in H; lia.
Qed.

(** The body of a 200 response tells the count: two counts with the same
    body are the same count. *)
Theorem body_determines_count a b :
  JSON_stringify (response a) = JSON_stringify (response b) -> a = b.
Proof.
  unfold JSON_stringify, response. cbn [schemaVersion label message color].
  intros H.
  do 11 apply append_inv_head in H.
  unfold json_string in H.
  apply append_inv_tail in H. apply append_inv_head in H.
  apply append_inv_tail in H. by apply String_inj.
Qed.

Lemma body_determines_count_witness :
  JSON_stringify (response 7) = JSON_stringify (response (3 + 4)) /\ 7 = 3 + 4.
Proof.
  split; [reflexivity|].
  exact (body_determines_count 7 (3 + 4) eq_refl).
Defined.

(** ** Requests without a client identifier *)

Lemma validated_identified f userIp :
  userIp <> EmptyString -> validated f userIp = f.
Proof.
  intros H. unfold validated.
  destruct (String.eqb_spec userIp EmptyString) as [->|_]; [done|].
  rewrite orb_false_r. by destruct f.
Qed.



